(** * Support tickets: the loader and the action of [app/routes/app._index.jsx]

    The route module exports two server functions: [loader], which reads the
    ticket table newest first, and [action], which dispatches on the form
    field [intent] and deletes, resolves, edits or creates a ticket.  Both
    talk to a Prisma client [db] whose schema is not part of the route; the
    table is modelled below as a finite map keyed by the primary key, and the
    client's calls as computations in a state-and-exception monad. *)

From Stdlib Require Import Ascii String.
From stdpp Require Import base option list strings pretty sorting relations gmap fin_maps.

Local Open Scope string_scope.

(** ** Strings *)

(** [String.prototype.toLowerCase] on the ASCII range: the capitals
    ['A'..'Z'] move to ['a'..'z'], every other character is kept.  A title is
    a [string] of 8-bit characters (its UTF-8 text), so the characters beyond
    ASCII are bytes above 127 and are left alone; the keywords tested below
    are all ASCII. *)
Definition lower_char (c : ascii) : ascii :=
  let n := nat_of_ascii c in
  if (65 <=? n)%nat && (n <=? 90)%nat then ascii_of_nat (n + 32) else c.

Fixpoint toLowerCase (s : string) : string :=
  match s with
  | EmptyString => EmptyString
  | String c s' => String (lower_char c) (toLowerCase s')
  end.

(** [String.prototype.includes]: [kw] occurs in [s] at some position. *)
Fixpoint includes (s kw : string) : bool :=
  String.prefix kw s ||
  match s with
  | EmptyString => false
  | String _ s' => includes s' kw
  end.

(** ** Data *)

(** A row of the ticket table, [{ id, title, description?, status, inquiry,
    createdAt }].  [status] and [inquiry] are the strings the route writes. *)
Record Ticket := mkTicket {
  id : string;
  title : string;
  description : option string;
  status : string;
  inquiry : string;
  createdAt : nat
}.

(** The four fields the action reads with [formData.get]; [None] is the
    [null] that [get] returns for a field the form does not carry. *)
Record FormData := mkForm {
  get_intent : option string;
  get_id : option string;
  get_title : option string;
  get_description : option string
}.

(** What the action returns: [{ success: true }] or [null]. *)
Inductive Response := Success | Null.

(** ** The store *)

Inductive StoreError := NotFound | PersistenceError.

(** Modelled from the spec: the Prisma client [db] and its schema are not in
    the route module.  The table is a finite map from [id] to row; the store
    owns the id generator ([nextId]) and the clock that stamps [createdAt];
    [online] says whether the store can be reached at all. *)
Record Db := mkDb {
  rows : gmap string Ticket;
  nextId : nat;
  clock : nat;
  online : bool
}.

Definition M (A : Type) : Type := Db → Db * (StoreError + A).

Global Instance M_ret : MRet M := λ A a db, (db, inr a).
Global Instance M_bind : MBind M := λ A B k c db,
  match c db with
  | (db', inr a) => k a db'
  | (db', inl e) => (db', inl e)
  end.
Definition try_catch {A} (c : M A) (handler : StoreError → M A) : M A := λ db,
  match c db with
  | (db', inr a) => (db', inr a)
  | (db', inl e) => handler e db'
  end.

(** The [data] object of [db.ticket.create]. *)
Record CreateData := mkCreate {
  new_title : string;
  new_description : option string;
  new_status : string;
  new_inquiry : string
}.

(** The [data] object of [db.ticket.update]: a field that is absent from the
    object is [None]; a field that is present carries the form value, which
    may itself be [null]. *)
Record UpdateData := mkUpdate {
  set_title : option (option string);
  set_description : option (option string);
  set_status : option string
}.

(** Modelled from the spec: how the store applies the partial fields of an
    update to a row.  Only the fields present in [data] are replaced;
    [title] is a required column, so a [null] title is a constraint
    violation and the row is rejected. *)
Definition apply_update (data : UpdateData) (t : Ticket) : option Ticket :=
  match set_title data with
  | Some None => None
  | new_t =>
    Some {| id := id t;
            title := default (title t) (mjoin new_t);
            description := default (description t) (set_description data);
            status := default (status t) (set_status data);
            inquiry := inquiry t;
            createdAt := createdAt t |}
  end.

(** Modelled from the spec: [Insert(ticket fields sans id/createdAt)]
    assigns [id] and [createdAt], persists, and returns the full record. *)
Definition ticket_create (data : CreateData) : M Ticket := λ db,
  if online db then
    let t := {| id := pretty (nextId db);
                title := new_title data;
                description := new_description data;
                status := new_status data;
                inquiry := new_inquiry data;
                createdAt := clock db |} in
    ({| rows := <[id t := t]> (rows db);
        nextId := S (nextId db);
        clock := clock db;
        online := true |}, inr t)
  else (db, inl PersistenceError).

(** Modelled from the spec: [Update(id, partial fields)] gives the updated
    ticket or not-found. *)
Definition ticket_update (where_id : option string) (data : UpdateData)
  : M Ticket := λ db,
  if online db then
    match where_id with
    | Some i =>
      match rows db !! i with
      | Some t =>
        match apply_update data t with
        | Some t' =>
          ({| rows := <[i := t']> (rows db);
              nextId := nextId db;
              clock := clock db;
              online := true |}, inr t')
        | None => (db, inl PersistenceError)
        end
      | None => (db, inl NotFound)
      end
    | None => (db, inl NotFound)
    end
  else (db, inl PersistenceError).

(** Modelled from the spec: [Delete(id)] gives success or not-found. *)
Definition ticket_delete (where_id : option string) : M Ticket := λ db,
  if online db then
    match where_id with
    | Some i =>
      match rows db !! i with
      | Some t =>
        ({| rows := delete i (rows db);
            nextId := nextId db;
            clock := clock db;
            online := true |}, inr t)
      | None => (db, inl NotFound)
      end
    | None => (db, inl NotFound)
    end
  else (db, inl PersistenceError).

(** [orderBy: { createdAt: 'desc' }]: a row comes before every row that was
    created no later than it. *)
Definition createdAt_desc (a b : Ticket) : Prop :=
  (createdAt b ≤ createdAt a)%nat.

Global Instance createdAt_desc_dec a b : Decision (createdAt_desc a b).
Proof. unfold createdAt_desc. apply _. Defined.

(** Modelled from the spec: [FindAll(orderBy=createdAt desc)]. *)
Definition ticket_findMany_createdAt_desc : M (list Ticket) := λ db,
  if online db then
    (db, inr (merge_sort createdAt_desc (map_to_list (rows db)).*2))
  else (db, inl PersistenceError).

(** ** The route *)

(** Lines 26-35. *)
Definition loader : M (list Ticket) :=
  try_catch
    (tickets ← ticket_findMany_createdAt_desc;
     mret tickets)
    (λ error, mret []).

(** Lines 73-83, the value of [autoInquiry] for a non-empty [title]. *)
Definition autoInquiry (title : string) : string :=
  let lowerTitle := toLowerCase title in
  if includes lowerTitle "money" || includes lowerTitle "price"
     || includes lowerTitle "refund" then "Sales"
  else if includes lowerTitle "error" || includes lowerTitle "bug"
          || includes lowerTitle "login" || includes lowerTitle "fail"
  then "Technical"
  else if includes lowerTitle "ship" || includes lowerTitle "order"
          || includes lowerTitle "delivery" then "Logistics"
  else "General".

(** Lines 38-95. *)
Definition action (f : FormData) : M Response :=
  let intent := get_intent f in
  let id := get_id f in
  let title := get_title f in
  let description := get_description f in
  if decide (intent = Some "delete") then
    ticket_delete id ;;
    mret Success
  else if decide (intent = Some "mark_done") then
    ticket_update id
      {| set_title := None; set_description := None;
         set_status := Some "FULFILLED" |} ;;
    mret Success
  else if decide (intent = Some "update") then
    ticket_update id
      {| set_title := Some title; set_description := Some description;
         set_status := None |} ;;
    mret Success
  else
    match title with
    | None | Some EmptyString => mret Null
    | Some title =>
      ticket_create
        {| new_title := title; new_description := description;
           new_status := "OPEN"; new_inquiry := autoInquiry title |} ;;
      mret Success
    end.

(** ** Runs of the service *)

(** The store before the first request. *)
Definition init : Db :=
  {| rows := ∅; nextId := 0; clock := 0; online := true |}.

(** Time passes on the store's clock. *)
Definition tick (n : nat) (db : Db) : Db :=
  {| rows := rows db; nextId := nextId db;
     clock := clock db + n; online := online db |}.

(** The connection to the store goes down or comes back. *)
Definition connect (b : bool) (db : Db) : Db :=
  {| rows := rows db; nextId := nextId db;
     clock := clock db; online := b |}.

(** One step of the world around the table: a request reaches [action] or
    [loader], time passes, or the connection changes. *)
Inductive step : Db → Db → Prop :=
  | step_action f db : step db (action f db).1
  | step_loader db : step db (loader db).1
  | step_tick n db : step db (tick n db)
  | step_connect b db : step db (connect b db).

Definition reachable (db : Db) : Prop := rtc step init db.

(** ** The categorization rule in the words of the specification *)

(** [kw] is a substring of [s]. *)
Definition Contains (s kw : string) : Prop :=
  ∃ pre post, s = pre +:+ kw +:+ post.

(** The keyword sets, in priority order. *)
Definition keyword_sets : list (string * list string) :=
  [ ("Sales", ["money"; "price"; "refund"]);
    ("Technical", ["error"; "bug"; "login"; "fail"]);
    ("Logistics", ["ship"; "order"; "delivery"]) ].

(** First match wins; [General] when no set matches. *)
Inductive first_match (l : string)
  : list (string * list string) → string → Prop :=
  | fm_default : first_match l [] "General"
  | fm_hit c kws rest kw :
      kw ∈ kws → Contains l kw → first_match l ((c, kws) :: rest) c
  | fm_skip c kws rest c' :
      (∀ kw, kw ∈ kws → ¬ Contains l kw) →
      first_match l rest c' → first_match l ((c, kws) :: rest) c'.

Definition categorization_rule (title category : string) : Prop :=
  first_match (toLowerCase title) keyword_sets category.

Definition categories : list string :=
  ["Sales"; "Technical"; "Logistics"; "General"].

(** The rule as a function: the category of the first set with a keyword
    that [l] includes. *)
Fixpoint categorize (l : string) (sets : list (string * list string))
  : string :=
  match sets with
  | [] => "General"
  | (c, kws) :: rest =>
    if existsb (includes l) kws then c else categorize l rest
  end.




(** ** The screen *)

(** A value used as a condition: [null] and the empty string are falsy. *)
Definition truthy (v : option string) : bool :=
  match v with
  | None | Some EmptyString => false
  | Some _ => true
  end.

(** The [useState] variables of [Index], lines 102-109.  [form_title] and
    [form_description] are the variables [title] and [description] of the
    form. *)
Record Screen := mkScreen {
  form_title : string;
  form_description : string;
  isFormModalOpen : bool;
  isDeleteModalOpen : bool;
  editingId : option string;
  idToDelete : option string
}.

(** A handler gives the next state of the screen and the fields it submits
    to the action, if it submits. *)
Definition Handler : Type := Screen → Screen * option FormData.




(** Lines 119-124; [ticket.description || ""] is the description, or the
    empty string when it is [null]. *)
Definition handleEditBtn (ticket : Ticket) : Handler := λ s,
  ({| form_title := title ticket;
      form_description := default "" (description ticket);
      isFormModalOpen := true;
      isDeleteModalOpen := isDeleteModalOpen s;
      editingId := Some (id ticket); idToDelete := idToDelete s |}, None).

(** Lines 126-128. *)
Definition handleMarkDone (id : string) : Handler := λ s,
  (s, Some (mkForm (Some "mark_done") (Some id) None None)).

(** Lines 130-137. *)
Definition handleFormSubmit : Handler := λ s,
  ({| form_title := form_title s; form_description := form_description s;
      isFormModalOpen := false;
      isDeleteModalOpen := isDeleteModalOpen s;
      editingId := editingId s; idToDelete := idToDelete s |},
   if truthy (editingId s) then
     Some (mkForm (Some "update") (editingId s) (Some (form_title s))
             (Some (form_description s)))
   else
     Some (mkForm (Some "create") None (Some (form_title s))
             (Some (form_description s)))).

(** Lines 139-142. *)
Definition handleDeleteBtn (id : string) : Handler := λ s,
  ({| form_title := form_title s; form_description := form_description s;
      isFormModalOpen := isFormModalOpen s;
      isDeleteModalOpen := true;
      editingId := editingId s; idToDelete := Some id |}, None).

(** Lines 144-150. *)
Definition confirmDelete : Handler := λ s,
  if truthy (idToDelete s) then
    ({| form_title := form_title s; form_description := form_description s;
        isFormModalOpen := isFormModalOpen s;
        isDeleteModalOpen := false;
        editingId := editingId s; idToDelete := None |},
     Some (mkForm (Some "delete") (idToDelete s) None None))
  else (s, None).

(** Line 176: the row of a ticket carries the mark-as-solved button when
    [ticket.status === 'OPEN']. *)
Definition offersMarkDone (ticket : Ticket) : bool :=
  bool_decide (status ticket = "OPEN").

(** The user does something on the screen: the handler runs, and what it
    submits is posted to [action], which works on the store. *)
Definition fire (h : Handler) (w : Screen * Db) : Screen * Db :=
  let (s', request) := h w.1 in
  (s', match request with
       | Some f => (action f w.2).1
       | None => w.2
       end).

(** The position of a category in the order in which the action tests the
    keyword sets. *)
Definition priority (category : string) : nat :=
  if decide (category = "Sales") then 0
  else if decide (category = "Technical") then 1
  else if decide (category = "Logistics") then 2
  else 3.

(** ** Invariants of a run *)

(** Every row sits under its own [id], and that id was handed out by the
    generator before its present position. *)
Definition ids_issued (db : Db) : Prop :=
  ∀ i t, rows db !! i = Some t →
    id t = i ∧ ∃ n, n < nextId db ∧ i = pretty n.

(** The row under [i], if there is one, is FULFILLED, and [i] is an id the
    generator has handed out already, so no later row gets it. *)
Definition settled (i : string) (db : Db) : Prop :=
  (∀ t, rows db !! i = Some t → status t = "FULFILLED")
  ∧ ∃ n, n < nextId db ∧ i = pretty n.

(** The row under [i], if there is one, still has the id, the inquiry and
    the creation time of [t0], and [i] has been handed out already. *)
Definition keeps_origin (i : string) (t0 : Ticket) (db : Db) : Prop :=
  (∀ t, rows db !! i = Some t →
     id t = id t0 ∧ inquiry t = inquiry t0 ∧ createdAt t = createdAt t0)
  ∧ ∃ n, n < nextId db ∧ i = pretty n.

(** Every row carries a status and an inquiry that the action writes. *)
Definition well_formed (db : Db) : Prop :=
  ∀ i t, rows db !! i = Some t →
    (status t = "OPEN" ∨ status t = "FULFILLED") ∧ inquiry t ∈ categories.

(** ** Proof steps *)

(** Appending to a string that starts with a known character. *)
Ltac string_app :=
  repeat match goal with
  | |- context [String ?c ?s +:+ ?t] =>
      change (String c s +:+ t) with (String c (s +:+ t))
  | |- context [EmptyString +:+ ?t] => change (EmptyString +:+ t) with t
  | H : context [String ?c ?s +:+ ?t] |- _ =>
      change (String c s +:+ t) with (String c (s +:+ t)) in H
  | H : context [EmptyString +:+ ?t] |- _ =>
      change (EmptyString +:+ t) with t in H
  end.

(** Unfolding a request down to the store. *)
Ltac run_action :=
  unfold action, loader, try_catch, ticket_findMany_createdAt_desc,
    ticket_create, ticket_update, ticket_delete,
    mbind, M_bind, mret, M_ret;
  cbn [get_intent get_id get_title get_description].

(** Every way a request can go. *)
Ltac action_cases :=
  run_action; repeat (case_decide || case_match); simplify_eq/=.

(** * Properties *)

(** ** Substrings *)

Lemma prefix_app (kw s : string) :
  String.prefix kw s = true ↔ ∃ post, s = kw +:+ post.
Proof.
  revert s. induction kw as [|c kw IH]; intros s.
  - split; [by exists s | by destruct s].
  - destruct s as [|c' s]; simpl.
    + split; [done | intros [post ?]; done].
    + destruct (ascii_dec c c') as [->|Hne].
      * rewrite IH. split; intros [post Heq]; exists post; string_app.
        -- by rewrite Heq.
        -- by injection Heq.
      * split; [done | intros [post Heq]; string_app; congruence].
Qed.

Lemma includes_Contains (s kw : string) :
  includes s kw = true ↔ Contains s kw.
Proof.
  unfold Contains. induction s as [|c s IH].
  - cbn [includes]. rewrite orb_false_r, prefix_app. split.
    + intros [post ->]. by exists "", post.
    + intros [[|c pre] [post Heq]]; string_app; [eauto|done].
  - cbn [includes]. rewrite orb_true_iff, IH, prefix_app. split.
    + intros [[post ->]|(pre & post & ->)].
      * by exists "", post.
      * by exists (String c pre), post.
    + intros [[|c' pre] [post Heq]]; string_app.
      * left. eauto.
      * right. injection Heq as -> ->. eauto.
Qed.

(** ** The categorization rule *)

Lemma autoInquiry_categorize (title : string) :
  autoInquiry title = categorize (toLowerCase title) keyword_sets.
Proof.
  unfold autoInquiry, keyword_sets. cbn [categorize existsb].
  by rewrite !orb_false_r, !orb_assoc.
Qed.

Lemma existsb_includes (l : string) (kws : list string) :
  existsb (includes l) kws = true ↔ ∃ kw, kw ∈ kws ∧ Contains l kw.
Proof.
  rewrite existsb_exists. split; intros (kw & Hin & Hkw); exists kw.
  - by rewrite list_elem_of_In, <- includes_Contains.
  - by rewrite <- list_elem_of_In, includes_Contains.
Qed.

Lemma first_match_categorize (l : string) sets :
  first_match l sets (categorize l sets).
Proof.
  induction sets as [|[c kws] rest IH]; cbn [categorize]; [constructor|].
  destruct (existsb (includes l) kws) eqn:E.
  - apply existsb_includes in E as (kw & ? & ?). by eapply fm_hit.
  - apply fm_skip; [|done]. intros kw Hin Hkw.
    assert (existsb (includes l) kws = true) by (apply existsb_includes; eauto).
    congruence.
Qed.

Lemma first_match_functional (l : string) sets c :
  first_match l sets c → c = categorize l sets.
Proof.
  induction 1 as [|c kws rest kw Hin Hkw|c kws rest c' Hno _ IH];
    cbn [categorize]; [done| |].
  - assert (existsb (includes l) kws = true) as ->; [|done].
    apply existsb_includes; eauto.
  - destruct (existsb (includes l) kws) eqn:E; [|done].
    apply existsb_includes in E as (kw & ? & ?). by destruct (Hno kw).
Qed.

(** C1: the inquiry of a new ticket is found by lower-casing the title and
    testing it for the keywords of Sales, then Technical, then Logistics,
    the first set with a keyword that occurs in it giving the category and
    General being the default; a Sales keyword wins over any other, and
    creating "Refund my order please" stores a Sales ticket. *)
Theorem autoInquiry_first_match_wins (title : string) :
  categorization_rule title (autoInquiry title)
  ∧ (∀ kw, kw ∈ ["money"; "price"; "refund"] →
       Contains (toLowerCase title) kw → autoInquiry title = "Sales")
  ∧ Contains (toLowerCase "Refund my order please") "refund"
  ∧ Contains (toLowerCase "Refund my order please") "order"
  ∧ inquiry <$>
      rows (action (mkForm (Some "create") None
                      (Some "Refund my order please") None) init).1 !! "0"
    = Some "Sales".
Proof.
  split_and!.
  - unfold categorization_rule. rewrite autoInquiry_categorize.
    apply first_match_categorize.
  - intros kw Hin Hkw. rewrite autoInquiry_categorize.
    unfold keyword_sets. cbn [categorize].
    assert (existsb (includes (toLowerCase title))
              ["money"; "price"; "refund"] = true) as ->; [|done].
    apply existsb_includes; eauto.
  - by apply includes_Contains.
  - by apply includes_Contains.
  - by vm_compute.
Qed.

(** C9: every title has exactly one category under the rule, it is one of
    Sales, Technical, Logistics and General, and it is the one the action
    computes. *)
Theorem autoInquiry_total_deterministic (title : string) :
  autoInquiry title ∈ categories
  ∧ ∀ c, categorization_rule title c ↔ c = autoInquiry title.
Proof.
  split.
  - unfold autoInquiry, categories.
    repeat match goal with
           | |- context [if ?b then _ else _] => destruct b
           end; set_solver.
  - intros c. unfold categorization_rule. rewrite autoInquiry_categorize.
    split; [apply first_match_functional|].
    intros ->. apply first_match_categorize.
Qed.

(** ** Partial updates *)

Lemma apply_update_frame data t t' :
  apply_update data t = Some t' →
  id t' = id t ∧ inquiry t' = inquiry t ∧ createdAt t' = createdAt t
  ∧ status t' = default (status t) (set_status data).
Proof.
  unfold apply_update. intros H.
  destruct (set_title data) as [[s|]|]; by simplify_eq/=.
Qed.

(** ** Identifiers are issued once *)

Lemma ids_issued_init : ids_issued init.
Proof. intros i t H. cbn [init rows] in H. by rewrite lookup_empty in H. Qed.

Lemma action_ids_issued f db : ids_issued db → ids_issued (action f db).1.
Proof.
  intros Hinv. run_action.
  repeat (case_decide || case_match); simplify_eq/=; try done.
  all: intros j u Hj; cbn [rows nextId] in *.
  - apply lookup_delete_Some in Hj as [_ Hj]. by apply Hinv.
  - apply lookup_insert_Some in Hj as [[<- <-]|[_ Hj]]; [|by apply Hinv].
    match goal with
    | H : apply_update _ _ = Some _ |- _ =>
        apply apply_update_frame in H as (-> & _)
    end.
    eauto.
  - apply lookup_insert_Some in Hj as [[<- <-]|[_ Hj]]; [|by apply Hinv].
    match goal with
    | H : apply_update _ _ = Some _ |- _ =>
        apply apply_update_frame in H as (-> & _)
    end.
    eauto.
  - apply lookup_insert_Some in Hj as [[<- <-]|[_ Hj]].
    + split; [done|]. exists (nextId db). split; [lia|done].
    + destruct (Hinv j u Hj) as (? & n & ? & ?).
      split; [done|]. exists n. split; [lia|done].
Qed.

(** Reading never writes. *)
Lemma loader_db db : (loader db).1 = db.
Proof. run_action. by destruct (online db). Qed.

Lemma step_ids_issued db db' : step db db' → ids_issued db → ids_issued db'.
Proof.
  destruct 1; [apply action_ids_issued| |done|done].
  by rewrite loader_db.
Qed.

Lemma reachable_ids_issued db : reachable db → ids_issued db.
Proof.
  unfold reachable. revert db.
  apply (rtc_ind_r (R:=step) ids_issued); [apply ids_issued_init|].
  intros d d' _ Hstep. by apply step_ids_issued.
Qed.

Lemma ids_issued_fresh db :
  ids_issued db → rows db !! pretty (nextId db) = None.
Proof.
  intros Hinv. destruct (rows db !! pretty (nextId db)) as [t|] eqn:E; [|done].
  destruct (Hinv _ _ E) as (_ & n & Hlt & Heq).
  apply (inj pretty) in Heq. lia.
Qed.

(** ** Creating *)





(** C10: a request whose intent is none of "delete", "mark_done" and
    "update" is handled as a create request; with a non-empty title and a
    store that can be written, one new row is added, it is OPEN and its
    inquiry is derived from the title. *)
Theorem other_intent_creates (f : FormData) (db : Db) :
  get_intent f ≠ Some "delete" →
  get_intent f ≠ Some "mark_done" →
  get_intent f ≠ Some "update" →
  action f db
    = action (mkForm (Some "create") (get_id f) (get_title f)
                (get_description f)) db
  ∧ ∀ t, get_title f = Some t → t ≠ "" → online db = true →
      action f db
        = ({| rows := <[pretty (nextId db) :=
                         {| id := pretty (nextId db);
                            title := t;
                            description := get_description f;
                            status := "OPEN";
                            inquiry := autoInquiry t;
                            createdAt := clock db |}]> (rows db);
              nextId := S (nextId db);
              clock := clock db;
              online := true |}, inr Success)
      ∧ (reachable db →
           size (rows (action f db).1) = S (size (rows db))).
Proof.
  intros Hd Hm Hu. split.
  - run_action. by repeat case_decide.
  - intros t Ht Hne Hon.
    match goal with |- ?a = ?b ∧ _ => assert (a = b) as -> end.
    + run_action. repeat case_decide; try done.
      rewrite Ht. destruct t as [|c t]; [done|]. by rewrite Hon.
    + split; [done|]. intros Hr. cbn [fst rows].
      apply map_size_insert_None, ids_issued_fresh.
      by apply reachable_ids_issued.
Qed.

Lemma other_intent_creates_witness :
  let f := mkForm (Some "archive") None (Some "Where is my delivery") None in
  action f init
    = action (mkForm (Some "create") None (Some "Where is my delivery")
                None) init
  ∧ inquiry <$> rows (action f init).1 !! "0" = Some "Logistics".
Proof.
  intros f.
  destruct (other_intent_creates f init) as [Heq Hnew]; [done..|].
  split; [exact Heq|].
  destruct (Hnew "Where is my delivery") as [-> _]; [done..|].
  by vm_compute.
Defined.

(** ** Editing *)

(** C3 fails on the code: the update branch writes the title it is given
    without the test the create branch makes, so after creating a ticket and
    editing it with an empty title the store holds a row whose title is
    empty. *)
Theorem update_persists_empty_title :
  let db1 :=
    (action (mkForm (Some "create") None (Some "Login issue") None) init).1 in
  let r := action (mkForm (Some "update") (Some "0") (Some "") None) db1 in
  reachable r.1 ∧ r.2 = inr Success ∧ title <$> rows r.1 !! "0" = Some "".
Proof.
  intros db1 r. split; [|by vm_compute].
  unfold reachable. eapply rtc_l; [apply step_action|].
  eapply rtc_l; [apply step_action|]. apply rtc_refl.
Qed.

(** C4: an update request for an existing ticket leaves the ticket's id,
    status, inquiry and createdAt as they were and leaves every other row
    alone; when the store takes the write, the title and the description are
    the ones of the request. *)
Theorem update_frame (f : FormData) (db : Db) (i : string) (t : Ticket) :
  get_intent f = Some "update" →
  get_id f = Some i →
  rows db !! i = Some t →
  (∃ t', rows (action f db).1 !! i = Some t'
     ∧ id t' = id t ∧ status t' = status t
     ∧ inquiry t' = inquiry t ∧ createdAt t' = createdAt t
     ∧ ∀ s, online db = true → get_title f = Some s →
         (action f db).2 = inr Success
         ∧ title t' = s ∧ description t' = get_description f)
  ∧ ∀ j, j ≠ i → rows (action f db).1 !! j = rows db !! j.
Proof.
  intros Hi Hid Ht. run_action. rewrite Hi, Hid.
  repeat case_decide; try done.
  destruct (online db); [|by split; [exists t|]].
  rewrite Ht. unfold apply_update. cbn [set_title set_description set_status].
  destruct (get_title f) as [s|]; cbn [fst snd rows].
  - split.
    + eexists. rewrite lookup_insert_eq. split; [done|].
      cbn. split_and!; try done. by intros ? _ [= <-].
    + intros j Hj. by rewrite lookup_insert_ne.
  - by split; [exists t|].
Qed.

Lemma update_frame_witness :
  let db :=
    (action (mkForm (Some "create") None (Some "Refund please") None) init).1 in
  let f := mkForm (Some "update") (Some "0") (Some "Refund, please")
             (Some "order 17") in
  rows (action f db).1 !! "0"
    = Some {| id := "0"; title := "Refund, please";
              description := Some "order 17"; status := "OPEN";
              inquiry := "Sales"; createdAt := 0 |}.
Proof.
  intros db f.
  destruct (update_frame f db "0"
              {| id := "0"; title := "Refund please"; description := None;
                 status := "OPEN"; inquiry := "Sales"; createdAt := 0 |})
    as [(t' & Hl & Hi & Hs & Hq & Hc & Hw) _]; [done | done | by vm_compute |].
  destruct (Hw "Refund, please") as (_ & Htt & Hd); [done | done |].
  rewrite Hl. f_equal. destruct t'; cbn in *. by subst.
Defined.

(** ** Resolving *)

Lemma action_settled f db i : settled i db → settled i (action f db).1.
Proof.
  intros [Hst (n & Hn & Hi)]. run_action.
  repeat (case_decide || case_match); simplify_eq/=;
    try (split; [done | by exists n]).
  all: split; [|exists n; split; [cbn; lia | done]].
  all: intros u Hu; cbn [fst rows] in Hu.
  - apply lookup_delete_Some in Hu as [_ Hu]. by apply Hst.
  - apply lookup_insert_Some in Hu as [[_ <-]|[_ Hu]]; [|by apply Hst].
    match goal with
    | H : apply_update _ _ = Some _ |- _ =>
        by apply apply_update_frame in H as (_ & _ & _ & ->)
    end.
  - apply lookup_insert_Some in Hu as [[Hk <-]|[_ Hu]]; [|by apply Hst].
    match goal with
    | H : apply_update _ _ = Some _ |- _ =>
        apply apply_update_frame in H as (_ & _ & _ & ->)
    end.
    cbn. apply Hst. by rewrite <- Hk.
  - apply lookup_insert_Some in Hu as [[Heq _]|[_ Hu]]; [|by apply Hst].
    apply (inj pretty) in Heq. lia.
Qed.

Lemma step_settled db db' i : step db db' → settled i db → settled i db'.
Proof.
  destruct 1; [apply action_settled| |done|done].
  by rewrite loader_db.
Qed.

Lemma rtc_step_settled db db' i :
  rtc step db db' → settled i db → settled i db'.
Proof. induction 1; eauto using step_settled. Qed.

(** C5: resolving an existing ticket succeeds and leaves it FULFILLED;
    resolving again changes nothing and succeeds as well, and on a ticket
    that is FULFILLED already the request leaves the store as it is;
    whatever happens afterwards, the ticket is FULFILLED for as long as it
    exists. *)
Theorem resolve_fulfils (f : FormData) (db : Db) (i : string) (t : Ticket) :
  reachable db →
  online db = true →
  get_intent f = Some "mark_done" →
  get_id f = Some i →
  rows db !! i = Some t →
  (action f db).2 = inr Success
  ∧ (∃ t', rows (action f db).1 !! i = Some t' ∧ status t' = "FULFILLED")
  ∧ action f (action f db).1 = ((action f db).1, inr Success)
  ∧ (status t = "FULFILLED" → action f db = (db, inr Success))
  ∧ (∀ db' t'', rtc step (action f db).1 db' →
       rows db' !! i = Some t'' → status t'' = "FULFILLED")
  ∧ (status t = "FULFILLED" →
     ∀ db' t'', rtc step db db' →
       rows db' !! i = Some t'' → status t'' = "FULFILLED").
Proof.
  intros Hr Hon Hi Hid Ht.
  set (t' := {| id := id t; title := title t; description := description t;
                status := "FULFILLED"; inquiry := inquiry t;
                createdAt := createdAt t |}).
  set (db1 := {| rows := <[i := t']> (rows db); nextId := nextId db;
                 clock := clock db; online := true |}).
  assert (action f db = (db1, inr Success)) as Hact.
  { run_action. rewrite Hi, Hid. repeat case_decide; try done.
    by rewrite Hon, Ht. }
  assert (action f db1 = (db1, inr Success)) as Hact1.
  { run_action. rewrite Hi, Hid. repeat case_decide; try done.
    unfold db1. cbn [online rows nextId clock].
    rewrite (lookup_insert_eq (rows db) i t'). cbn.
    by rewrite insert_insert_eq. }
  destruct (reachable_ids_issued db Hr i t Ht) as (_ & n & Hn & Hin).
  rewrite Hact. cbn [fst snd]. split_and!; [done| |done| | |].
  - exists t'. unfold db1. cbn [rows]. by rewrite lookup_insert_eq.
  - intros Hs. f_equal. destruct db as [m k c o], t as [a b c0 d e g].
    cbn in *. subst. unfold db1, t'. cbn. f_equal. by apply insert_id.
  - intros db' t'' Hsteps Hl.
    assert (settled i db1) as Hset.
    { split; [|by exists n].
      intros u. unfold db1. cbn [rows]. rewrite lookup_insert_eq.
      by intros [= <-]. }
    by apply (rtc_step_settled _ _ _ Hsteps Hset).
  - intros Hs db' t'' Hsteps Hl.
    assert (settled i db) as Hset.
    { split; [|by exists n]. intros u Hu. congruence. }
    by apply (rtc_step_settled _ _ _ Hsteps Hset).
Qed.

Lemma resolve_fulfils_witness :
  let db :=
    (action (mkForm (Some "create") None (Some "Login fails") None) init).1 in
  let f := mkForm (Some "mark_done") (Some "0") None None in
  status <$> rows (action f db).1 !! "0" = Some "FULFILLED".
Proof.
  intros db f.
  destruct (resolve_fulfils f db "0"
              {| id := "0"; title := "Login fails"; description := None;
                 status := "OPEN"; inquiry := "Technical"; createdAt := 0 |})
    as (_ & (t' & -> & Hs) & _).
  - unfold reachable. eapply rtc_l; [apply step_action|]. apply rtc_refl.
  - done.
  - done.
  - done.
  - by vm_compute.
  - cbn. by rewrite Hs.
Defined.

(** C8: an update or a resolve request whose id is not the id of a row
    throws NotFound out of the action and leaves the store as it was. *)
Theorem update_resolve_not_found (f : FormData) (db : Db) :
  online db = true →
  get_intent f = Some "update" ∨ get_intent f = Some "mark_done" →
  get_id f ≫= (rows db !!.) = None →
  action f db = (db, inl NotFound).
Proof.
  intros Hon Hi Hid. run_action.
  destruct Hi as [-> | ->]; repeat case_decide; try done; rewrite Hon.
  all: destruct (get_id f) as [i|]; [|done].
  all: cbn in Hid; by rewrite Hid.
Qed.

Lemma update_resolve_not_found_witness :
  action (mkForm (Some "update") (Some "7") (Some "New title") None) init
    = (init, inl NotFound)
  ∧ action (mkForm (Some "mark_done") (Some "7") None None) init
    = (init, inl NotFound).
Proof.
  split.
  - apply (update_resolve_not_found
             (mkForm (Some "update") (Some "7") (Some "New title") None) init);
      [done | by left | done].
  - apply (update_resolve_not_found
             (mkForm (Some "mark_done") (Some "7") None None) init);
      [done | by right | done].
Defined.

(** ** Listing *)

Global Instance createdAt_desc_total : Total createdAt_desc.
Proof. intros a b. unfold createdAt_desc. lia. Qed.

Global Instance createdAt_desc_trans : Transitive createdAt_desc.
Proof. intros a b c. unfold createdAt_desc. lia. Qed.

Lemma loader_online db :
  online db = true →
  loader db
    = (db, inr (merge_sort createdAt_desc (map_to_list (rows db)).*2)).
Proof. intros Hon. run_action. by rewrite Hon. Qed.

(** Two rows of different age have one newest-first order. *)
Lemma newest_first_pair (a b : Ticket) (l : list Ticket) :
  l ≡ₚ [b; a] → Sorted createdAt_desc l → createdAt a < createdAt b →
  l = [b; a].
Proof.
  intros Hp Hs Hlt. symmetry in Hp.
  apply Permutation_length_2_inv in Hp as [-> | ->]; [done|].
  apply Sorted_inv in Hs as [_ Hhd]. apply HdRel_inv in Hhd.
  unfold createdAt_desc in Hhd. lia.
Qed.

(** C6: when the table can be read, the loader returns every row exactly
    once, newest first; after creating T1 and, later, T2 in an empty store
    it returns [T2; T1]. *)
Theorem loader_newest_first (db : Db) (s1 s2 : string)
    (d1 d2 : option string) (n : nat) :
  online db = true → s1 ≠ "" → s2 ≠ "" → 0 < n →
  (∃ tickets, loader db = (db, inr tickets)
     ∧ tickets ≡ₚ (map_to_list (rows db)).*2
     ∧ StronglySorted createdAt_desc tickets)
  ∧ let db1 := (action (mkForm (Some "create") None (Some s1) d1) init).1 in
    let db2 :=
      (action (mkForm (Some "create") None (Some s2) d2) (tick n db1)).1 in
    (loader db2).2
      = inr [ {| id := "1"; title := s2; description := d2; status := "OPEN";
                 inquiry := autoInquiry s2; createdAt := n |};
              {| id := "0"; title := s1; description := d1; status := "OPEN";
                 inquiry := autoInquiry s1; createdAt := 0 |} ].
Proof.
  intros Hon H1 H2 Hn. split.
  - eexists. split; [by apply loader_online|]. split.
    + apply merge_sort_Permutation.
    + apply StronglySorted_merge_sort; apply _.
  - intros db1 db2.
    set (T1 := {| id := "0"; title := s1; description := d1;
                  status := "OPEN"; inquiry := autoInquiry s1;
                  createdAt := 0 |}).
    set (T2 := {| id := "1"; title := s2; description := d2;
                  status := "OPEN"; inquiry := autoInquiry s2;
                  createdAt := n |}).
    assert (db2 = {| rows := <["1" := T2]> (<["0" := T1]> ∅);
                     nextId := 2; clock := n; online := true |}) as ->.
    { unfold db2, db1. run_action.
      destruct s1 as [|c1 s1], s2 as [|c2 s2]; done. }
    rewrite loader_online by done. cbn [snd rows]. apply f_equal.
    apply newest_first_pair; [| |cbn; lia].
    + rewrite merge_sort_Permutation.
      rewrite map_to_list_insert by done.
      by rewrite insert_empty, map_to_list_singleton.
    + apply Sorted_merge_sort, _.
Qed.

Lemma loader_newest_first_witness :
  (loader
     (action (mkForm (Some "create") None (Some "Price list") None)
        (tick 3
           (action (mkForm (Some "create") None (Some "Bug in cart")
                      (Some "see log")) init).1)).1).2
  = inr [ {| id := "1"; title := "Price list"; description := None;
             status := "OPEN"; inquiry := "Sales"; createdAt := 3 |};
          {| id := "0"; title := "Bug in cart";
             description := Some "see log"; status := "OPEN";
             inquiry := "Technical"; createdAt := 0 |} ].
Proof.
  apply (loader_newest_first init "Bug in cart" "Price list"
           (Some "see log") None 3); [done | done | done | lia].
Defined.

(** C7: when the read of the table fails, the loader returns the empty list
    and throws nothing. *)
Theorem loader_fail_soft (db : Db) (e : StoreError) :
  (ticket_findMany_createdAt_desc db).2 = inl e →
  loader db = (db, inr []).
Proof.
  run_action. by destruct (online db).
Qed.

Lemma loader_fail_soft_witness :
  loader
    (connect false
       (action (mkForm (Some "create") None (Some "Order late") None)
          init).1)
  = (connect false
       (action (mkForm (Some "create") None (Some "Order late") None)
          init).1, inr []).
Proof. by apply (loader_fail_soft _ PersistenceError). Defined.

(** * Further properties of the route *)

(** ** What a request can and cannot do to the table *)

(** X1: a request that ends in an error leaves the table as it was: every
    branch of the action makes one call to the store and nothing after it. *)
Theorem action_failure_keeps_store (f : FormData) (db : Db) (e : StoreError) :
  (action f db).2 = inl e → (action f db).1 = db.
Proof. action_cases; done. Qed.

Lemma action_failure_keeps_store_witness :
  (action (mkForm (Some "delete") (Some "9") None None) init).1 = init.
Proof.
  apply (action_failure_keeps_store _ _ NotFound). by vm_compute.
Defined.

(** X2: the action answers [null] exactly when the request falls through to
    the create code with a title that is absent or empty. *)
Theorem action_null_iff (f : FormData) (db : Db) :
  (action f db).2 = inr Null
  ↔ get_intent f ≠ Some "delete" ∧ get_intent f ≠ Some "mark_done"
    ∧ get_intent f ≠ Some "update" ∧ truthy (get_title f) = false.
Proof.
  split.
  - action_cases; try done.
    all: match goal with H : get_title _ = _ |- _ => rewrite H end; done.
  - intros (Hd & Hm & Hu & Ht). run_action. repeat case_decide; try done.
    by destruct (get_title f) as [[|]|].
Qed.

(** X3: a request changes no row other than the one whose id it carries
    and the one it creates. *)
Theorem action_other_rows_kept (f : FormData) (db : Db) (j : string) :
  get_id f ≠ Some j → j ≠ pretty (nextId db) →
  rows (action f db).1 !! j = rows db !! j.
Proof.
  intros Hid Hnew. action_cases; try done.
  - apply lookup_delete_ne. congruence.
  - apply lookup_insert_ne. congruence.
  - apply lookup_insert_ne. congruence.
  - by apply lookup_insert_ne.
Qed.

Lemma action_other_rows_kept_witness :
  let db :=
    (action (mkForm (Some "create") None (Some "Order lost") None) init).1 in
  rows (action (mkForm (Some "delete") (Some "5") None None) db).1 !! "0"
    = rows db !! "0".
Proof.
  intros db.
  apply (action_other_rows_kept (mkForm (Some "delete") (Some "5") None None)
           db "0"); by vm_compute.
Defined.

(** X4: deleting an existing ticket succeeds, removes its row and lowers the
    number of rows by one. *)
Theorem delete_removes_row (f : FormData) (db : Db) (i : string) (t : Ticket) :
  get_intent f = Some "delete" → get_id f = Some i →
  online db = true → rows db !! i = Some t →
  (action f db).2 = inr Success
  ∧ rows (action f db).1 !! i = None
  ∧ S (size (rows (action f db).1)) = size (rows db).
Proof.
  intros Hi Hid Hon Ht. run_action. rewrite Hi, Hid.
  case_decide; [|done]. rewrite Hon, Ht. cbn [fst snd rows].
  split_and!; [done| |].
  - apply lookup_delete_eq.
  - rewrite map_size_delete, Ht.
    assert (size (rows db) ≠ 0); [|cbn; lia].
    intros Hz. apply map_size_empty_inv in Hz. rewrite Hz in Ht.
    by rewrite lookup_empty in Ht.
Qed.

Lemma delete_removes_row_witness :
  let db :=
    (action (mkForm (Some "create") None (Some "Order lost") None) init).1 in
  rows (action (mkForm (Some "delete") (Some "0") None None) db).1 !! "0"
    = None.
Proof.
  intros db.
  destruct (delete_removes_row (mkForm (Some "delete") (Some "0") None None)
              db "0"
              {| id := "0"; title := "Order lost"; description := None;
                 status := "OPEN"; inquiry := "Logistics"; createdAt := 0 |})
    as (_ & H & _); [done | done | done | by vm_compute | exact H].
Defined.

(** X5: creating a ticket and then deleting it brings back the rows there
    were before, but not the id: the generator has moved on. *)
Theorem create_then_delete (f : FormData) (db : Db) (t : string) :
  reachable db → online db = true →
  get_intent f = Some "create" → get_title f = Some t → t ≠ "" →
  let db1 := (action f db).1 in
  let db2 :=
    (action (mkForm (Some "delete") (Some (pretty (nextId db))) None None)
       db1).1 in
  rows db2 = rows db ∧ nextId db2 = S (nextId db).
Proof.
  intros Hr Hon Hi Ht Hne db1 db2. unfold db2, db1. run_action.
  rewrite Hi, Ht. repeat case_decide; try done.
  destruct t as [|c t]; [done|]. rewrite Hon. cbn [fst snd rows online nextId].
  rewrite lookup_insert_eq. cbn [fst snd rows nextId]. split; [|done].
  rewrite delete_insert_eq. apply delete_id, ids_issued_fresh.
  by apply reachable_ids_issued.
Qed.

Lemma create_then_delete_witness :
  rows (action (mkForm (Some "delete") (Some "0") None None)
          (action (mkForm (Some "create") None (Some "Bug") None) init).1).1
  = ∅.
Proof.
  destruct (create_then_delete (mkForm (Some "create") None (Some "Bug") None)
              init "Bug") as [H _];
    [apply rtc_refl | done | done | done | done | exact H].
Defined.

(** X8: creating never overwrites: every row there was is still there,
    unchanged, after a request that goes to the create code. *)
Theorem create_keeps_rows (f : FormData) (db : Db) (j : string) (t : Ticket) :
  reachable db →
  get_intent f ≠ Some "delete" → get_intent f ≠ Some "mark_done" →
  get_intent f ≠ Some "update" →
  rows db !! j = Some t → rows (action f db).1 !! j = Some t.
Proof.
  intros Hr Hd Hm Hu Hj. action_cases; try done.
  rewrite lookup_insert_ne; [done|]. intros <-.
  apply reachable_ids_issued, ids_issued_fresh in Hr. congruence.
Qed.

Lemma create_keeps_rows_witness :
  let db :=
    (action (mkForm (Some "create") None (Some "Order lost") None) init).1 in
  rows (action (mkForm None (Some "0") (Some "Price?") None) db).1 !! "0"
  = Some {| id := "0"; title := "Order lost"; description := None;
            status := "OPEN"; inquiry := "Logistics"; createdAt := 0 |}.
Proof.
  intros db.
  apply (create_keeps_rows (mkForm None (Some "0") (Some "Price?") None) db);
    [|done|done|done|by vm_compute].
  unfold reachable. eapply rtc_l; [apply step_action|]. apply rtc_refl.
Defined.

(** X9: editing and resolving never add or remove a ticket: the set of ids
    in the table is the same after the request. *)
Theorem update_resolve_keep_ids (f : FormData) (db : Db) :
  get_intent f = Some "update" ∨ get_intent f = Some "mark_done" →
  dom (rows (action f db).1) = dom (rows db).
Proof.
  intros [Hi | Hi]; run_action; rewrite Hi; repeat case_decide; try done.
  all: repeat case_match; simplify_eq/=; try done.
  all: by apply dom_insert_lookup_L.
Qed.

Lemma update_resolve_keep_ids_witness :
  let db :=
    (action (mkForm (Some "create") None (Some "Order lost") None) init).1 in
  dom (rows (action (mkForm (Some "mark_done") (Some "0") None None) db).1)
  = dom (rows db).
Proof.
  intros db.
  apply (update_resolve_keep_ids
           (mkForm (Some "mark_done") (Some "0") None None) db).
  by right.
Defined.

(** ** What stays true along a run *)

Lemma action_keeps_origin f db i t0 :
  keeps_origin i t0 db → keeps_origin i t0 (action f db).1.
Proof.
  intros [Hk (n & Hn & Hi)]. action_cases;
    try (split; [done | by exists n]).
  all: split; [|exists n; split; [cbn; lia | done]].
  all: intros u Hu; cbn [fst rows] in Hu.
  - apply lookup_delete_Some in Hu as [_ Hu]. by apply Hk.
  - apply lookup_insert_Some in Hu as [[Hs <-]|[_ Hu]]; [|by apply Hk].
    match goal with
    | H : apply_update _ _ = Some _ |- _ =>
        apply apply_update_frame in H as (-> & -> & -> & _)
    end.
    apply Hk. by rewrite <- Hs.
  - apply lookup_insert_Some in Hu as [[Hs <-]|[_ Hu]]; [|by apply Hk].
    match goal with
    | H : apply_update _ _ = Some _ |- _ =>
        apply apply_update_frame in H as (-> & -> & -> & _)
    end.
    apply Hk. by rewrite <- Hs.
  - apply lookup_insert_Some in Hu as [[Heq _]|[_ Hu]]; [|by apply Hk].
    apply (inj pretty) in Heq. lia.
Qed.

Lemma rtc_step_keeps_origin db db' i t0 :
  rtc step db db' → keeps_origin i t0 db → keeps_origin i t0 db'.
Proof.
  induction 1 as [|d1 d2 d3 Hstep _ IH]; [done|].
  intros Hk. apply IH. destruct Hstep; [by apply action_keeps_origin| |done..].
  by rewrite loader_db.
Qed.

(** X6: a ticket keeps its id, its inquiry and its creation time for as
    long as it exists: after any sequence of requests, clock ticks and
    connection changes, the row under its id, if there is one, has them. *)
Theorem origin_kept_along_runs (db db' : Db) (i : string) (t t' : Ticket) :
  reachable db → rtc step db db' →
  rows db !! i = Some t → rows db' !! i = Some t' →
  id t' = id t ∧ inquiry t' = inquiry t ∧ createdAt t' = createdAt t.
Proof.
  intros Hr Hsteps Ht Ht'.
  destruct (reachable_ids_issued db Hr i t Ht) as (_ & n & Hn & Hi).
  assert (keeps_origin i t db) as Hk.
  { split; [|by exists n]. intros u Hu. by simplify_eq. }
  by apply (rtc_step_keeps_origin _ _ _ _ Hsteps Hk).
Qed.

Lemma origin_kept_along_runs_witness :
  let db :=
    (action (mkForm (Some "create") None (Some "Refund") None) init).1 in
  let db' :=
    (action (mkForm (Some "update") (Some "0") (Some "Login bug") None)
       (tick 5 db)).1 in
  inquiry <$> rows db' !! "0" = Some "Sales".
Proof.
  intros db db'.
  destruct (rows db' !! "0") as [t'|] eqn:E; [|by vm_compute in E].
  destruct (origin_kept_along_runs db db' "0"
              {| id := "0"; title := "Refund"; description := None;
                 status := "OPEN"; inquiry := "Sales"; createdAt := 0 |} t')
    as (_ & Hq & _).
  - unfold reachable. eapply rtc_l; [apply step_action|]. apply rtc_refl.
  - eapply rtc_l; [apply (step_tick 5)|].
    eapply rtc_l; [apply step_action|]. apply rtc_refl.
  - by vm_compute.
  - exact E.
  - cbn. by rewrite Hq.
Defined.

Lemma action_well_formed f db : well_formed db → well_formed (action f db).1.
Proof.
  intros Hw. action_cases; try done.
  all: intros j u Hu; cbn [fst rows] in Hu.
  - apply lookup_delete_Some in Hu as [_ Hu]. by apply (Hw _ _ Hu).
  - apply lookup_insert_Some in Hu as [[_ <-]|[_ Hu]]; [|by apply (Hw _ _ Hu)].
    match goal with
    | H : apply_update _ _ = Some _ |- _ =>
        apply apply_update_frame in H as (_ & -> & _ & ->)
    end.
    split; [by right|]. by eapply Hw.
  - apply lookup_insert_Some in Hu as [[_ <-]|[_ Hu]]; [|by apply (Hw _ _ Hu)].
    match goal with
    | H : apply_update _ _ = Some _ |- _ =>
        apply apply_update_frame in H as (_ & -> & _ & ->)
    end.
    by eapply Hw.
  - apply lookup_insert_Some in Hu as [[_ <-]|[_ Hu]]; [|by apply (Hw _ _ Hu)].
    split; [by left|]. cbn [inquiry].
    match goal with
    | |- context [autoInquiry ?s] =>
        unfold autoInquiry, categories;
        repeat match goal with
               | |- context [if ?b then _ else _] => destruct b
               end; set_solver
    end.
Qed.

Lemma reachable_well_formed db : reachable db → well_formed db.
Proof.
  unfold reachable. revert db. apply (rtc_ind_r (R:=step) well_formed).
  - intros i t H. cbn [init rows] in H. by rewrite lookup_empty in H.
  - intros d d' _ Hstep Hw.
    destruct Hstep; [by apply action_well_formed| |done..].
    by rewrite loader_db.
Qed.

(** X7: in every state the service can reach, each row is stored under its
    own id, its status is OPEN or FULFILLED and its inquiry is one of the
    four categories. *)
Theorem reachable_rows_well_formed (db : Db) (i : string) (t : Ticket) :
  reachable db → rows db !! i = Some t →
  id t = i
  ∧ (status t = "OPEN" ∨ status t = "FULFILLED")
  ∧ inquiry t ∈ categories.
Proof.
  intros Hr Ht. split; [by apply (reachable_ids_issued db Hr i t Ht)|].
  by apply (reachable_well_formed db Hr i t).
Qed.

Lemma reachable_rows_well_formed_witness :
  let t := {| id := "0"; title := "Cannot log in"; description := None;
              status := "FULFILLED"; inquiry := "General"; createdAt := 0 |} in
  id t = "0" ∧ (status t = "OPEN" ∨ status t = "FULFILLED")
  ∧ inquiry t ∈ categories.
Proof.
  intros t.
  apply (reachable_rows_well_formed
           (action (mkForm (Some "mark_done") (Some "0") None None)
              (action (mkForm (Some "create") None (Some "Cannot log in")
                         None) init).1).1 "0" t); [|by vm_compute].
  unfold reachable. eapply rtc_l; [apply step_action|].
  eapply rtc_l; [apply step_action|]. apply rtc_refl.
Defined.

(** ** The list and the table *)

Lemma sorted_rows_elem db t :
  ids_issued db →
  t ∈ merge_sort createdAt_desc (map_to_list (rows db)).*2
  ↔ rows db !! id t = Some t.
Proof.
  intros Hinv. rewrite merge_sort_Permutation, list_elem_of_fmap. split.
  - intros ([j u] & -> & Hin). apply elem_of_map_to_list in Hin. cbn.
    by destruct (Hinv j u Hin) as [-> _].
  - intros Ht. exists (id t, t). split; [done|].
    by apply elem_of_map_to_list.
Qed.

Lemma sorted_rows_length db :
  length (merge_sort createdAt_desc (map_to_list (rows db)).*2)
  = size (rows db).
Proof. by rewrite merge_sort_Permutation, length_fmap, length_map_to_list. Qed.

(** X10: when the store can be read, the list the loader returns has as many
    tickets as the table has rows, and a ticket is in the list exactly when
    it is the row stored under its id. *)
Theorem loader_lists_the_rows (db : Db) (tickets : list Ticket) :
  reachable db → online db = true → (loader db).2 = inr tickets →
  length tickets = size (rows db)
  ∧ ∀ t, t ∈ tickets ↔ rows db !! id t = Some t.
Proof.
  intros Hr Hon. rewrite loader_online by done.
  cbn. intros [= <-]. split; [apply sorted_rows_length|].
  intros t. by apply sorted_rows_elem, reachable_ids_issued.
Qed.

Lemma loader_lists_the_rows_witness :
  let db :=
    (action (mkForm (Some "create") None (Some "Order lost") None) init).1 in
  length [ {| id := "0"; title := "Order lost"; description := None;
              status := "OPEN"; inquiry := "Logistics"; createdAt := 0 |} ]
  = size (rows db).
Proof.
  intros db.
  refine (proj1 (loader_lists_the_rows db _ _ _ _)); [|done|by vm_compute].
  unfold reachable. eapply rtc_l; [apply step_action|]. apply rtc_refl.
Defined.

(** ** Longer titles *)

Lemma string_app_assoc (a b c : string) : (a +:+ b) +:+ c = a +:+ b +:+ c.
Proof. induction a as [|x a IH]; string_app; [done|]. by rewrite IH. Qed.

Lemma toLowerCase_app (a b : string) :
  toLowerCase (a +:+ b) = toLowerCase a +:+ toLowerCase b.
Proof.
  induction a as [|x a IH]; string_app; [done|].
  cbn [toLowerCase]. string_app. by rewrite IH.
Qed.

Lemma Contains_extend (pre l post kw : string) :
  Contains l kw → Contains (pre +:+ l +:+ post) kw.
Proof.
  intros (p & q & ->). exists (pre +:+ p), (q +:+ post).
  by rewrite !string_app_assoc.
Qed.

Lemma existsb_includes_extend (pre l post : string) kws :
  existsb (includes l) kws = true →
  existsb (includes (pre +:+ l +:+ post)) kws = true.
Proof.
  rewrite !existsb_includes. intros (kw & ? & ?). exists kw.
  split; [done|]. by apply Contains_extend.
Qed.

(** X11: text added before or after a title never moves the ticket down the
    order Sales, Technical, Logistics, General: the category of the longer
    title is tested no later than the category of the title itself. *)
Theorem longer_title_never_demotes (pre title post : string) :
  (priority (autoInquiry (pre +:+ title +:+ post))
   ≤ priority (autoInquiry title))%nat.
Proof.
  rewrite !autoInquiry_categorize, !toLowerCase_app.
  unfold keyword_sets. cbn [categorize].
  set (l := toLowerCase title).
  set (p := toLowerCase pre). set (q := toLowerCase post).
  pose proof (existsb_includes_extend p l q
                ["money"; "price"; "refund"]) as H1.
  pose proof (existsb_includes_extend p l q
                ["error"; "bug"; "login"; "fail"]) as H2.
  pose proof (existsb_includes_extend p l q
                ["ship"; "order"; "delivery"]) as H3.
  repeat match goal with
         | H : ?b = true → _ |- _ =>
             destruct b; [specialize (H eq_refl); rewrite H | clear H]
         end;
    repeat match goal with
           | |- context [if ?b then _ else _] => destruct b
           end;
    vm_compute; lia.
Qed.

(** ** From the screen to the table *)

Lemma pretty_N_go_nonempty (x : N) (s : string) :
  s ≠ "" → pretty_N_go x s ≠ "".
Proof.
  revert s. induction (N.lt_wf_0 x) as [x _ IH]. intros s Hs.
  destruct (decide (x = 0%N)) as [->|Hx]; [by rewrite pretty_N_go_0|].
  rewrite pretty_N_go_step by lia. apply IH; [|done].
  apply N.div_lt; lia.
Qed.

Lemma pretty_nat_nonempty (n : nat) : pretty n ≠ "".
Proof.
  unfold pretty, pretty_nat, pretty, pretty_N. case_decide; [done|].
  rewrite pretty_N_go_step by lia. by apply pretty_N_go_nonempty.
Qed.

Lemma issued_id_truthy db i t :
  ids_issued db → rows db !! i = Some t → truthy (Some i) = true.
Proof.
  intros Hinv Ht. destruct (Hinv i t Ht) as (_ & n & _ & ->).
  pose proof (pretty_nat_nonempty n). by destruct (pretty n).
Qed.

(** X12: confirming a deletion a second time does nothing: the first
    confirmation clears the chosen id, so the second one submits no request
    and leaves the screen as it is, and neither the screen nor the table
    changes again. *)
Theorem confirmDelete_once (w : Screen * Db) :
  (confirmDelete (confirmDelete w.1).1).2 = None
  ∧ (confirmDelete (confirmDelete w.1).1).1 = (confirmDelete w.1).1
  ∧ fire confirmDelete (fire confirmDelete w) = fire confirmDelete w.
Proof.
  destruct w as [s db]. unfold fire, confirmDelete. cbn [fst snd].
  destruct (truthy (idToDelete s)) eqn:E; cbn [fst snd idToDelete truthy].
  - done.
  - by rewrite E.
Qed.

(** X13: choosing Delete on a ticket of the table and confirming removes
    that row and no other, closes the dialog and clears the chosen id. *)
Theorem delete_flow (s : Screen) (db : Db) (i : string) (t : Ticket) :
  reachable db → online db = true → rows db !! i = Some t →
  let w := fire confirmDelete (fire (handleDeleteBtn i) (s, db)) in
  rows w.2 = delete i (rows db)
  ∧ isDeleteModalOpen w.1 = false ∧ idToDelete w.1 = None.
Proof.
  intros Hr Hon Ht.
  pose proof (issued_id_truthy db i t (reachable_ids_issued db Hr) Ht) as Hi.
  unfold fire, confirmDelete, handleDeleteBtn. cbn [fst snd idToDelete].
  rewrite Hi. cbn [fst snd isDeleteModalOpen idToDelete].
  split; [|done]. run_action. case_decide; [|done]. by rewrite Hon, Ht.
Qed.

Lemma delete_flow_witness :
  let s := mkScreen "" "" false false None None in
  let db :=
    (action (mkForm (Some "create") None (Some "Order lost") None) init).1 in
  rows (fire confirmDelete (fire (handleDeleteBtn "0") (s, db))).2
  = delete "0" (rows db).
Proof.
  intros s db.
  refine (proj1 (delete_flow s db "0"
                   {| id := "0"; title := "Order lost"; description := None;
                      status := "OPEN"; inquiry := "Logistics";
                      createdAt := 0 |} _ _ _)); [|done|by vm_compute].
  unfold reachable. eapply rtc_l; [apply step_action|]. apply rtc_refl.
Defined.


(** X15: opening a ticket of the table for editing and saving it untouched
    keeps its title, status, inquiry and creation time; the description is
    written back as it was shown, so a missing description becomes the
    empty text, and a ticket that had a description leaves the store as it
    was. *)
Theorem edit_without_change (s : Screen) (db : Db) (t : Ticket) :
  reachable db → online db = true → rows db !! id t = Some t →
  let w := fire handleFormSubmit (fire (handleEditBtn t) (s, db)) in
  rows w.2
    = <[id t := {| id := id t; title := title t;
                   description := Some (default "" (description t));
                   status := status t; inquiry := inquiry t;
                   createdAt := createdAt t |}]> (rows db)
  ∧ (description t ≠ None → w.2 = db).
Proof.
  intros Hr Hon Ht.
  pose proof (issued_id_truthy db _ t (reachable_ids_issued db Hr) Ht) as Hi.
  unfold fire, handleFormSubmit, handleEditBtn.
  cbn [fst snd editingId form_title form_description]. rewrite Hi.
  cbn [fst snd]. run_action. repeat case_decide; try done.
  rewrite Hon, Ht. cbn. split; [done|].
  intros Hd. destruct db as [m n c o], t as [a b [d|] e g h]; [|done].
  cbn in *. subst. f_equal. by apply insert_id.
Qed.

Lemma edit_without_change_witness :
  let s := mkScreen "" "" false false None None in
  let db :=
    (action (mkForm (Some "create") None (Some "Order lost") None) init).1 in
  let t := {| id := "0"; title := "Order lost"; description := None;
              status := "OPEN"; inquiry := "Logistics"; createdAt := 0 |} in
  rows (fire handleFormSubmit (fire (handleEditBtn t) (s, db))).2 !! "0"
  = Some {| id := "0"; title := "Order lost"; description := Some "";
            status := "OPEN"; inquiry := "Logistics"; createdAt := 0 |}.
Proof.
  intros s db t.
  destruct (edit_without_change s db t) as [-> _].
  - unfold reachable. eapply rtc_l; [apply step_action|]. apply rtc_refl.
  - done.
  - by vm_compute.
  - by vm_compute.
Defined.

(** X16: in a table the service can reach, a listed ticket lacks the
    mark-as-solved button exactly when it is FULFILLED; pressing the button
    leaves the screen as it is, and the list read afterwards is as long as
    before and shows the ticket without the button. *)
Theorem mark_done_flow (s : Screen) (db : Db) (t : Ticket)
    (tickets : list Ticket) :
  reachable db → online db = true →
  (loader db).2 = inr tickets → t ∈ tickets →
  let w := fire (handleMarkDone (id t)) (s, db) in
  (offersMarkDone t = false ↔ status t = "FULFILLED")
  ∧ w.1 = s
  ∧ ∃ tickets' t',
      (loader w.2).2 = inr tickets' ∧ length tickets' = length tickets
      ∧ t' ∈ tickets' ∧ id t' = id t ∧ title t' = title t
      ∧ offersMarkDone t' = false.
Proof.
  intros Hr Hon. rewrite loader_online by done. cbn [snd].
  intros [= <-] Hin.
  pose proof (reachable_ids_issued db Hr) as Hinv.
  apply sorted_rows_elem in Hin; [|done].
  split_and!.
  - unfold offersMarkDone. rewrite bool_decide_eq_false.
    destruct (reachable_well_formed db Hr _ _ Hin) as [[-> | ->] _];
      split; done.
  - done.
  - set (t' := {| id := id t; title := title t; description := description t;
                  status := "FULFILLED"; inquiry := inquiry t;
                  createdAt := createdAt t |}).
    set (db1 := {| rows := <[id t := t']> (rows db); nextId := nextId db;
                   clock := clock db; online := true |}).
    assert ((fire (handleMarkDone (id t)) (s, db)).2 = db1) as ->.
    { unfold fire, handleMarkDone. cbn [fst snd]. run_action.
      repeat case_decide; try done. by rewrite Hon, Hin. }
    eexists _, t'. split; [by rewrite loader_online|].
    rewrite !sorted_rows_length. split_and!; try done.
    + unfold db1. cbn [rows]. rewrite map_size_insert_Some; [done|].
      by rewrite Hin.
    + apply sorted_rows_elem.
      * intros j u Hu. unfold db1 in Hu. cbn [rows nextId] in *.
        apply lookup_insert_Some in Hu as [[<- <-]|[_ Hu]]; [|by apply Hinv].
        split; [done|]. by destruct (Hinv _ _ Hin) as [_ ?].
      * unfold db1. cbn [rows id]. by rewrite lookup_insert_eq.
Qed.

Lemma mark_done_flow_witness :
  let s := mkScreen "" "" false false None None in
  let db :=
    (action (mkForm (Some "create") None (Some "Order lost") None) init).1 in
  let t := {| id := "0"; title := "Order lost"; description := None;
              status := "OPEN"; inquiry := "Logistics"; createdAt := 0 |} in
  ∃ tickets' t',
    (loader (fire (handleMarkDone "0") (s, db)).2).2 = inr tickets'
    ∧ length tickets' = 1
    ∧ t' ∈ tickets' ∧ id t' = "0" ∧ title t' = "Order lost"
    ∧ offersMarkDone t' = false.
Proof.
  intros s db t.
  refine (proj2 (proj2 (mark_done_flow s db t [t] _ _ _ _))).
  - unfold reachable. eapply rtc_l; [apply step_action|]. apply rtc_refl.
  - done.
  - by vm_compute.
  - apply list_elem_of_singleton. done.
Defined.
